(** * wcosmo: flat wCDM cosmology formulas ([wcosmo/wcosmo.py])

    A shallow embedding of the module's functions and of the [FlatwCDM]
    and [FlatLambdaCDM] classes.

    Numbers.  The module computes with the floats of its array backend.
    Two models of them are used.

    In the first one a number is a real ([R]) and every arithmetic
    operation is the exact one.  An operation that has no real value
    where the backend yields [nan] or an infinity (division by zero, the
    logarithm of a non-positive number, a negative base raised to a
    non-integral power) gives [Undefined], which then propagates like
    [nan] does through arithmetic.  Exceptions raised by the interpreter
    (a call that cannot bind its arguments) give [Raise].  This model
    carries the statements on how the functions are composed, on what
    they call and on which grid cell the inversion picks; these do not
    depend on rounding.

    In the second one ([Module Double]) a number is a binary64 float
    and the operations are those of the interpreter on Python floats,
    with their rounding.  It carries the statements that rounding
    decides. *)

From Stdlib Require Import Reals RList Lra Lia ZArith String Bool List.
From Stdlib Require PrimFloat FloatOps SpecFloat.
Import ListNotations.
Open Scope R_scope.

(** ** Outcomes of a computation *)

Inductive exn : Type :=
| TypeError
| ValueError
| ZeroDivisionError
| OverflowError.

Inductive result (A : Type) : Type :=
| Ok (a : A)
| Undefined
| Raise (e : exn).

Arguments Ok {A} a.
Arguments Undefined {A}.
Arguments Raise {A} e.

Definition bind {A B : Type} (m : result A) (k : A -> result B) : result B :=
  match m with
  | Ok a => k a
  | Undefined => Undefined
  | Raise e => Raise e
  end.

Notation "x <- m ;; k" := (bind m (fun x => k))
  (at level 61, m at next level, right associativity).

(** Elementwise evaluation of a scalar function over an array, left to
    right. *)
Fixpoint mapM {A B : Type} (f : A -> result B) (l : list A) : result (list B) :=
  match l with
  | [] => Ok []
  | a :: l' => b <- f a ;; bs <- mapM f l' ;; Ok (b :: bs)
  end.

(** Binary operators on outcomes: the left operand is evaluated first. *)
Definition lift2 (op : R -> R -> result R) (a b : result R) : result R :=
  x <- a ;; y <- b ;; op x y.

(** ** Arithmetic of the backend *)

Definition divide (x y : R) : result R :=
  if Req_dec_T y 0 then Undefined else Ok (x / y).

(** [x ** y]. *)
Definition power (x y : R) : result R :=
  if Rlt_dec 0 x then Ok (Rpower x y)
  else if Req_dec_T x 0 then
    (if Rlt_dec 0 y then Ok 0
     else if Req_dec_T y 0 then Ok 1
     else Undefined)
  else if Req_dec_T y (IZR (Int_part y)) then Ok (powerRZ x (Int_part y))
  else Undefined.

Definition log10 (x : R) : result R :=
  if Rlt_dec 0 x then Ok (Rlog 10 x) else Undefined.

(** ** Calls with keyword arguments

    A signature lists the parameters in order, each with its default if
    it has one.  [bind_args] is the interpreter's binding of positional
    and keyword arguments to them. *)

Definition kwargs : Type := list (string * R).
Definition signature : Type := list (string * option R).

Fixpoint lookup (k : string) (kw : kwargs) : option R :=
  match kw with
  | [] => None
  | (k', v) :: kw' => if String.eqb k k' then Some v else lookup k kw'
  end.

Definition has_param (sig : signature) (k : string) : bool :=
  existsb (fun p => String.eqb k (fst p)) sig.

Fixpoint fill (sig : signature) (pos : list R) (kw : kwargs) : result (list R) :=
  match sig, pos with
  | [], [] => Ok []
  | [], _ :: _ => Raise TypeError          (* too many positional arguments *)
  | (p, _) :: sig', v :: pos' =>
      match lookup p kw with
      | Some _ => Raise TypeError          (* multiple values for [p] *)
      | None => vs <- fill sig' pos' kw ;; Ok (v :: vs)
      end
  | (p, d) :: sig', [] =>
      match lookup p kw, d with
      | Some v, _ => vs <- fill sig' [] kw ;; Ok (v :: vs)
      | None, Some v => vs <- fill sig' [] kw ;; Ok (v :: vs)
      | None, None => Raise TypeError      (* missing required argument *)
      end
  end.

Definition bind_args (sig : signature) (pos : list R) (kw : kwargs)
  : result (list R) :=
  if forallb (fun a => has_param sig (fst a)) kw
  then fill sig pos kw
  else Raise TypeError.                    (* unexpected keyword argument *)

Definition sig_z_Om0_w0 : signature :=
  [("z", None); ("Om0", None); ("w0", Some (-1))]%string.

Definition sig_z_H0_Om0_w0 : signature :=
  [("z", None); ("H0", None); ("Om0", None); ("w0", Some (-1))]%string.

(** ** The array backend: [logspace] and [interp]

    These two are numpy's, modelled after its implementation
    ([linspace] in [function_base.py], [arr_interp] and
    [binary_search_with_guess] in [compiled_base.c]), without the
    branches for [nan].  [linspace] computes [arange(num) * step + start]
    and, for more than one point, overwrites the last entry with [stop];
    [logspace] raises 10 to it. *)

Definition linspace (start stop : R) (num : nat) : list R :=
  match num with
  | O => []
  | S O => [start]
  | S div =>
      let step := (stop - start) / INR div in
      map (fun i => INR i * step + start) (seq 0 div) ++ [stop]
  end.

Definition logspace (start stop : R) (num : nat) : list R :=
  map (fun y => Rpower 10 y) (linspace start stop num).

Definition nthR (l : list R) (i : Z) : R := nth (Z.to_nat i) l 0.

Definition lenZ (l : list R) : Z := Z.of_nat (length l).

(** The search of [interp] for the index [j] with [arr[j] <= key < arr[j+1]];
    [-1] and [len] stand for a key outside of the array.  Arrays of at most
    four elements are searched linearly, the others by bisection, after
    the three elements around the previous result [guess] were tried and
    the window of [LIKELY_IN_CACHE_SIZE] elements next to them. *)

Fixpoint linear_search (fuel : nat) (key : R) (arr : list R) (len i : Z) : Z :=
  match fuel with
  | O => (i - 1)%Z
  | S fuel' =>
      if (i <? len)%Z then
        if Rle_dec (nthR arr i) key
        then linear_search fuel' key arr len (i + 1)
        else (i - 1)%Z
      else (i - 1)%Z
  end.

Fixpoint bisect (fuel : nat) (key : R) (arr : list R) (imin imax : Z) : Z :=
  match fuel with
  | O => (imin - 1)%Z
  | S fuel' =>
      if (imin <? imax)%Z then
        let imid := (imin + Z.shiftr (imax - imin) 1)%Z in
        if Rle_dec (nthR arr imid) key
        then bisect fuel' key arr (imid + 1) imax
        else bisect fuel' key arr imin imid
      else (imin - 1)%Z
  end.

Definition LIKELY_IN_CACHE_SIZE : Z := 8.

Definition binary_search_with_guess (key : R) (arr : list R) (len guess : Z) : Z :=
  if Rlt_dec (nthR arr (len - 1)) key then len
  else if Rlt_dec key (nthR arr 0) then (-1)%Z
  else if (len <=? 4)%Z then
    linear_search (Z.to_nat len) key arr len 1
  else
    let guess := if (len - 3 <? guess)%Z then (len - 3)%Z else guess in
    let guess := if (guess <? 1)%Z then 1%Z else guess in
    if Rlt_dec key (nthR arr guess) then
      if Rlt_dec key (nthR arr (guess - 1)) then
        let imin :=
          if ((LIKELY_IN_CACHE_SIZE <? guess)%Z
              && (if Rle_dec (nthR arr (guess - LIKELY_IN_CACHE_SIZE)) key
                  then true else false))%bool
          then (guess - LIKELY_IN_CACHE_SIZE)%Z else 0%Z in
        bisect (Z.to_nat (guess - 1 - imin)) key arr imin (guess - 1)
      else (guess - 1)%Z
    else if Rlt_dec key (nthR arr (guess + 1)) then guess
    else if Rlt_dec key (nthR arr (guess + 2)) then (guess + 1)%Z
    else
      let imax :=
        if ((guess <? len - LIKELY_IN_CACHE_SIZE - 1)%Z
            && (if Rlt_dec key (nthR arr (guess + LIKELY_IN_CACHE_SIZE))
                then true else false))%bool
        then (guess + LIKELY_IN_CACHE_SIZE)%Z else len in
      bisect (Z.to_nat (imax - (guess + 2))) key arr (guess + 2) imax.

(** The value of the interpolant at one point [x], with the index found
    for it, which is the guess for the next point. *)
Definition interp_point (x : R) (dx dy : list R) (lval rval : R) (guess : Z)
  : R * Z :=
  let lenxp := lenZ dx in
  if (lenxp =? 1)%Z then
    ((if Rlt_dec x (nthR dx 0) then lval
      else if Rlt_dec (nthR dx 0) x then rval
      else nthR dy 0), guess)
  else
    let j := binary_search_with_guess x dx lenxp guess in
    ((if (j =? -1)%Z then lval
      else if (j =? lenxp)%Z then rval
      else if (j =? lenxp - 1)%Z then nthR dy j
      else if Req_dec_T (nthR dx j) x then nthR dy j
      else
        let slope := (nthR dy (j + 1) - nthR dy j) / (nthR dx (j + 1) - nthR dx j) in
        slope * (x - nthR dx j) + nthR dy j), j).

Fixpoint interp_points (xs : list R) (dx dy : list R) (lval rval : R) (guess : Z)
  : list R :=
  match xs with
  | [] => []
  | x :: xs' =>
      let '(r, j) := interp_point x dx dy lval rval guess in
      r :: interp_points xs' dx dy lval rval j
  end.

(** [interp(x, xp, fp, left=..., right=..., period=None)] for an array
    of points and for one point. *)
Definition interp_array (xs : list R) (xp fp : list R) (left right : R)
  : result (list R) :=
  if (length xp =? 0)%nat then Raise ValueError
  else if negb (length fp =? length xp)%nat then Raise ValueError
  else Ok (interp_points xs xp fp left right 0).

Definition interp (x : R) (xp fp : list R) (left right : R) : result R :=
  rs <- interp_array [x] xp fp left right ;;
  match rs with
  | [r] => Ok r
  | _ => Raise ValueError
  end.

(** ** Redshift inversion

    [func] receives the grid and the keyword arguments of the call. *)
Definition z_at_value (func : list R -> kwargs -> result (list R))
    (fval zmin zmax : R) (kw : kwargs) : result R :=
  a <- log10 zmin ;;
  b <- log10 zmax ;;
  let zs := logspace a b 1000 in
  fs <- func zs kw ;;
  interp fval fs zs zmin zmax.

Definition zmin_default : R := 1 / 10000.
Definition zmax_default : R := 100.

(** A function of the redshift alone, applied to an array. *)
Definition elementwise (f : R -> R) : list R -> kwargs -> result (list R) :=
  fun zs _ => Ok (map f zs).

(** ** The formulas on doubles

    The arithmetic of Python floats.  [+], [-] and [*] are the IEEE
    operations and raise nothing; [/] raises [ZeroDivisionError] for a
    zero divisor; [**] is [float_pow] of the interpreter, which settles
    the special cases itself and hands the others to the [pow] of the C
    library, here the parameter [libm_pow].  A negative base with a
    non-integral exponent gives a complex number, which is [Undefined]
    here. *)

Module Double.
Import PrimFloat.
#[local] Set Warnings "-inexact-float".
Local Open Scope float_scope.

Definition is_integer (x : float) : bool :=
  match FloatOps.Prim2SF x with
  | SpecFloat.S754_zero _ => true
  | SpecFloat.S754_finite _ m e =>
      ((0 <=? e)%Z || (Z.pos m mod 2 ^ (- e) =? 0)%Z)%bool
  | _ => false
  end.

(** [DOUBLE_IS_ODD_INTEGER]. *)
Definition is_odd_integer (x : float) : bool :=
  match FloatOps.Prim2SF x with
  | SpecFloat.S754_finite _ m e =>
      if (0 <? e)%Z then false
      else ((Z.pos m mod 2 ^ (- e) =? 0)%Z
            && Z.odd (Z.pos m / 2 ^ (- e)))%bool
  | _ => false
  end.

Definition float_div (x y : float) : result float :=
  if y =? 0 then Raise ZeroDivisionError else Ok (x / y).

Record FlatwCDM : Type := mkFlatwCDM {
  H0_ : float;
  Om0_ : float;
  w0_ : float;
  zmin_ : float;
  zmax_ : float;
  name_ : option string;
  meta_ : list (string * string)
}.

Definition Planck15 : FlatwCDM :=
  mkFlatwCDM 67.74 0.3075 (-1) 1e-4 100 (Some "Planck15"%string) [].

Section Backend.

Variable libm_pow : float -> float -> float.
Variable analytic_integral : float -> float -> float -> float -> result float.
Variable SPEED_OF_LIGHT_KM_PER_S : float.

Definition float_pow (iv iw : float) : result float :=
  if iw =? 0 then Ok 1
  else if is_nan iv then Ok iv
  else if is_nan iw then Ok (if iv =? 1 then 1 else iw)
  else if is_infinity iw then
    let av := abs iv in
    if av =? 1 then Ok 1
    else if Bool.eqb (0 <? iw) (1 <? av) then Ok (abs iw)
    else Ok 0
  else if is_infinity iv then
    let odd := is_odd_integer iw in
    if 0 <? iw then Ok (if odd then iv else abs iv)
    else Ok (if odd then (if iv <? 0 then neg_zero else zero) else 0)
  else if iv =? 0 then
    if iw <? 0 then Raise ZeroDivisionError
    else Ok (if is_odd_integer iw then iv else 0)
  else if (iv <? 0) && negb (is_integer iw) then Undefined
  else
    let negate := (iv <? 0) && is_odd_integer iw in
    let av := if iv <? 0 then - iv else iv in
    if av =? 1 then Ok (if negate then -1 else 1)
    else
      let ix := libm_pow av iw in
      if is_infinity ix then Raise OverflowError
      else Ok (if negate then - ix else ix).

Definition efunc (z Om0 w0 : float) : result float :=
  let zp1 := 1 + z in
  a <- float_pow zp1 3 ;;
  b <- float_pow zp1 (3 * (1 + w0)) ;;
  float_pow (Om0 * a + (1 - Om0) * b) 0.5.

Definition inv_efunc (z Om0 w0 : float) : result float :=
  e <- efunc z Om0 w0 ;; float_div 1 e.

Definition hubble_distance (H0 : float) : result float :=
  float_div SPEED_OF_LIGHT_KM_PER_S H0.

Definition comoving_distance (z H0 Om0 w0 : float) : result float :=
  i <- analytic_integral z Om0 w0 0 ;;
  d <- hubble_distance H0 ;;
  Ok (i * d).

Definition luminosity_distance (z H0 Om0 w0 : float) : result float :=
  dC <- comoving_distance z H0 Om0 w0 ;;
  Ok ((1 + z) * dC).

Definition FlatwCDM_hubble_distance (self : FlatwCDM) : result float :=
  hubble_distance (H0_ self).

Definition FlatwCDM_luminosity_distance (self : FlatwCDM) (z : float)
  : result float :=
  luminosity_distance z (H0_ self) (Om0_ self) (w0_ self).

Definition FlatwCDM_dLdH (self : FlatwCDM) (z : float) : result float :=
  l <- FlatwCDM_luminosity_distance self z ;;
  d <- FlatwCDM_hubble_distance self ;;
  float_div l d.

Definition FlatwCDM_efunc (self : FlatwCDM) (z : float) : result float :=
  efunc z (Om0_ self) (w0_ self).

End Backend.

End Double.

Section Cosmology.

(** The collaborators of the module that live in [wcosmo.taylor] and
    [wcosmo.utils]: the analytic integral
    [analytic_integral(z, Om0, w0, zpower=0)] and the two constants. *)
Variable analytic_integral : R -> R -> R -> R -> result R.
Variable SPEED_OF_LIGHT_KM_PER_S : R.
Variable GYR_KM_PER_S_MPC : R.

(** ** Module-level functions *)

Definition efunc (z Om0 w0 : R) : result R :=
  let zp1 := 1 + z in
  a <- power zp1 3 ;;
  b <- power zp1 (3 * (1 + w0)) ;;
  power (Om0 * a + (1 - Om0) * b) (1 / 2).

Definition inv_efunc (z Om0 w0 : R) : result R :=
  e <- efunc z Om0 w0 ;; divide 1 e.

(** [inv_efunc] called with positional and keyword arguments; the
    decorators [maybe_jit] and [autodoc] hand the arguments over to the
    function as they are. *)
Definition inv_efunc_call (pos : list R) (kw : kwargs) : result R :=
  args <- bind_args sig_z_Om0_w0 pos kw ;;
  match args with
  | [z; Om0; w0] => inv_efunc z Om0 w0
  | _ => Raise TypeError
  end.

Definition hubble_distance (H0 : R) : result R :=
  divide SPEED_OF_LIGHT_KM_PER_S H0.

Definition hubble_time (H0 : R) : result R :=
  divide GYR_KM_PER_S_MPC H0.

Definition hubble_parameter (z H0 Om0 w0 : R) : result R :=
  d <- hubble_distance H0 ;;
  i <- inv_efunc_call []
         [("z", z); ("H0", H0); ("Om0", Om0); ("w0", w0)]%string ;;
  Ok (d * i).

Definition comoving_distance (z H0 Om0 w0 : R) : result R :=
  i <- analytic_integral z Om0 w0 0 ;;
  d <- hubble_distance H0 ;;
  Ok (i * d).

Definition lookback_time (z H0 Om0 w0 : R) : result R :=
  i <- analytic_integral z Om0 w0 (-1) ;;
  t <- hubble_time H0 ;;
  Ok (i * t).

Definition absorption_distance (z Om0 w0 : R) : result R :=
  analytic_integral z Om0 w0 2.

Definition luminosity_distance (z H0 Om0 w0 : R) : result R :=
  dC <- comoving_distance z H0 Om0 w0 ;;
  Ok ((1 + z) * dC).

Definition comoving_volume (z H0 Om0 w0 : R) : result R :=
  dC <- comoving_distance z H0 Om0 w0 ;;
  c <- power dC 3 ;;
  Ok (4 / 3 * PI * c).

(** [luminosity_distance(zs, **kw)] on an array of redshifts. *)
Definition luminosity_distance_array (zs : list R) (kw : kwargs)
  : result (list R) :=
  args <- bind_args sig_z_H0_Om0_w0 [0] kw ;;
  match args with
  | [_; H0; Om0; w0] => mapM (fun z => luminosity_distance z H0 Om0 w0) zs
  | _ => Raise TypeError
  end.

Definition luminosity_distance_call (pos : list R) (kw : kwargs) : result R :=
  args <- bind_args sig_z_H0_Om0_w0 pos kw ;;
  match args with
  | [z; H0; Om0; w0] => luminosity_distance z H0 Om0 w0
  | _ => Raise TypeError
  end.

Definition lookback_time_call (pos : list R) (kw : kwargs) : result R :=
  args <- bind_args sig_z_H0_Om0_w0 pos kw ;;
  match args with
  | [z; H0; Om0; w0] => lookback_time z H0 Om0 w0
  | _ => Raise TypeError
  end.

Definition detector_to_source_frame (m1z m2z dL H0 Om0 w0 zmin zmax : R)
  : result (R * R * R) :=
  z <- z_at_value luminosity_distance_array dL zmin zmax
         [("H0", H0); ("Om0", Om0); ("w0", w0)]%string ;;
  m1 <- divide m1z (1 + z) ;;
  m2 <- divide m2z (1 + z) ;;
  Ok (m1, m2, z).

(** ** The cosmology classes *)

Definition metadata : Type := list (string * string).

Record FlatwCDM : Type := mkFlatwCDM {
  H0_ : R;
  Om0_ : R;
  w0_ : R;
  zmin_ : R;
  zmax_ : R;
  name_ : option string;
  meta_ : metadata
}.

(** [FlatwCDM.__init__]; the setter of [meta] stores an empty mapping
    for [None]. *)
Definition FlatwCDM_init (H0 Om0 w0 : R) (zmin zmax : R)
    (name : option string) (meta : option metadata) : FlatwCDM :=
  mkFlatwCDM H0 Om0 w0 zmin zmax name
    (match meta with None => [] | Some m => m end).

(** [FlatLambdaCDM.__init__]. *)
Definition FlatLambdaCDM_init (H0 Om0 : R) (zmin zmax : R)
    (name : option string) (meta : option metadata) : FlatwCDM :=
  FlatwCDM_init H0 Om0 (-1) zmin zmax name meta.

Definition _kwargs (self : FlatwCDM) : kwargs :=
  [("H0", H0_ self); ("Om0", Om0_ self); ("w0", w0_ self)]%string.

Definition FlatwCDM_hubble_distance (self : FlatwCDM) : result R :=
  hubble_distance (H0_ self).

Definition FlatwCDM_luminosity_distance (self : FlatwCDM) (z : R) : result R :=
  luminosity_distance_call [z] (_kwargs self).

Definition FlatwCDM_dLdH (self : FlatwCDM) (z : R) : result R :=
  l <- FlatwCDM_luminosity_distance self z ;;
  d <- FlatwCDM_hubble_distance self ;;
  divide l d.

Definition FlatwCDM_efunc (self : FlatwCDM) (z : R) : result R :=
  efunc z (Om0_ self) (w0_ self).

Definition FlatwCDM_lookback_time (self : FlatwCDM) (z : R) : result R :=
  lookback_time_call [z] (_kwargs self).

(** [age(self, z, zmax=1e5)]: [None] for an omitted [zmax]. *)
Definition FlatwCDM_age (self : FlatwCDM) (z : R) (zmax : option R) : result R :=
  let zmax := match zmax with Some v => v | None => 100000 end in
  a <- FlatwCDM_lookback_time self zmax ;;
  b <- FlatwCDM_lookback_time self z ;;
  Ok (a - b).

(** ** The remaining functions and methods *)

Definition comoving_distance_call (pos : list R) (kw : kwargs) : result R :=
  args <- bind_args sig_z_H0_Om0_w0 pos kw ;;
  match args with
  | [z; H0; Om0; w0] => comoving_distance z H0 Om0 w0
  | _ => Raise TypeError
  end.

Definition dDLdz (z H0 Om0 w0 : R) : result R :=
  dC <- comoving_distance_call [z] [("H0", H0); ("Om0", Om0); ("w0", w0)]%string ;;
  Ez_i <- inv_efunc_call [z] [("Om0", Om0); ("w0", w0)]%string ;;
  D_H <- hubble_distance H0 ;;
  Ok (dC + (1 + z) * D_H * Ez_i).

Definition differential_comoving_volume (z H0 Om0 w0 : R) : result R :=
  dC <- comoving_distance_call [z; H0; Om0] [("w0", w0)]%string ;;
  Ez_i <- inv_efunc_call [z; Om0] [("w0", w0)]%string ;;
  D_H <- hubble_distance H0 ;;
  sq <- power dC 2 ;;
  Ok (sq * D_H * Ez_i).

Definition source_to_detector_frame (m1 m2 z H0 Om0 w0 : R)
  : result (R * R * R) :=
  dL <- luminosity_distance_call [z; H0; Om0] [("w0", w0)]%string ;;
  Ok (m1 * (1 + z), m2 * (1 + z), dL).


Definition hubble_parameter_call (pos : list R) (kw : kwargs) : result R :=
  args <- bind_args sig_z_H0_Om0_w0 pos kw ;;
  match args with
  | [z; H0; Om0; w0] => hubble_parameter z H0 Om0 w0
  | _ => Raise TypeError
  end.

Definition dDLdz_call (pos : list R) (kw : kwargs) : result R :=
  args <- bind_args sig_z_H0_Om0_w0 pos kw ;;
  match args with
  | [z; H0; Om0; w0] => dDLdz z H0 Om0 w0
  | _ => Raise TypeError
  end.

Definition differential_comoving_volume_call (pos : list R) (kw : kwargs)
  : result R :=
  args <- bind_args sig_z_H0_Om0_w0 pos kw ;;
  match args with
  | [z; H0; Om0; w0] => differential_comoving_volume z H0 Om0 w0
  | _ => Raise TypeError
  end.

Definition comoving_volume_call (pos : list R) (kw : kwargs) : result R :=
  args <- bind_args sig_z_H0_Om0_w0 pos kw ;;
  match args with
  | [z; H0; Om0; w0] => comoving_volume z H0 Om0 w0
  | _ => Raise TypeError
  end.

Definition sig_detector_to_source_frame : signature :=
  [("m1z", None); ("m2z", None); ("dL", None); ("H0", None); ("Om0", None);
   ("w0", Some (-1)); ("zmin", Some zmin_default);
   ("zmax", Some zmax_default)]%string.

Definition detector_to_source_frame_call (pos : list R) (kw : kwargs)
  : result (R * R * R) :=
  args <- bind_args sig_detector_to_source_frame pos kw ;;
  match args with
  | [m1z; m2z; dL; H0; Om0; w0; zmin; zmax] =>
      detector_to_source_frame m1z m2z dL H0 Om0 w0 zmin zmax
  | _ => Raise TypeError
  end.

Definition sig_source_to_detector_frame : signature :=
  [("m1", None); ("m2", None); ("z", None); ("H0", None); ("Om0", None);
   ("w0", Some (-1))]%string.

Definition source_to_detector_frame_call (pos : list R) (kw : kwargs)
  : result (R * R * R) :=
  args <- bind_args sig_source_to_detector_frame pos kw ;;
  match args with
  | [m1; m2; z; H0; Om0; w0] => source_to_detector_frame m1 m2 z H0 Om0 w0
  | _ => Raise TypeError
  end.

Definition FlatwCDM_dDLdz (self : FlatwCDM) (z : R) : result R :=
  dDLdz_call [z] (_kwargs self).

Definition FlatwCDM_differential_comoving_volume (self : FlatwCDM) (z : R)
  : result R :=
  differential_comoving_volume_call [z] (_kwargs self).

Definition FlatwCDM_detector_to_source_frame (self : FlatwCDM) (m1z m2z dL : R)
  : result (R * R * R) :=
  detector_to_source_frame_call [m1z; m2z; dL]
    (_kwargs self ++ [("zmin", zmin_ self); ("zmax", zmax_ self)]%string).

Definition FlatwCDM_source_to_detector_frame (self : FlatwCDM) (m1 m2 z : R)
  : result (R * R * R) :=
  source_to_detector_frame_call [m1; m2; z] (_kwargs self).

Definition FlatwCDM_inv_efunc (self : FlatwCDM) (z : R) : result R :=
  inv_efunc z (Om0_ self) (w0_ self).

Definition FlatwCDM_H (self : FlatwCDM) (z : R) : result R :=
  hubble_parameter_call [z] (_kwargs self).

Definition FlatwCDM_comoving_distance (self : FlatwCDM) (z : R) : result R :=
  comoving_distance_call [z] (_kwargs self).

Definition FlatwCDM_comoving_volume (self : FlatwCDM) (z : R) : result R :=
  comoving_volume_call [z] (_kwargs self).

Definition FlatwCDM_absorption_distance (self : FlatwCDM) (z : R) : result R :=
  absorption_distance z (Om0_ self) (w0_ self).

(** ** The named cosmologies *)

Definition preset (H0 Om0 : R) (name : string) : FlatwCDM :=
  FlatLambdaCDM_init H0 Om0 zmin_default zmax_default (Some name) None.

Definition Planck13 : FlatwCDM := preset (6777 / 100) (30712 / 100000) "Planck13".
Definition Planck15 : FlatwCDM := preset (6774 / 100) (3075 / 10000) "Planck15".
Definition Planck18 : FlatwCDM := preset (6766 / 100) (30966 / 100000) "Planck18".
Definition WMAP1 : FlatwCDM := preset (720 / 10) (257 / 1000) "WMAP1".
Definition WMAP3 : FlatwCDM := preset (701 / 10) (276 / 1000) "WMAP3".
Definition WMAP5 : FlatwCDM := preset (702 / 10) (277 / 1000) "WMAP5".
Definition WMAP7 : FlatwCDM := preset (704 / 10) (272 / 1000) "WMAP7".
Definition WMAP9 : FlatwCDM := preset (6932 / 100) (2865 / 10000) "WMAP9".

(** A value of [available]: one of the named cosmologies or one of the
    two classes. *)
Inductive entry : Type :=
| Instance (c : FlatwCDM)
| ClassFlatLambdaCDM
| ClassFlatwCDM.

Definition available : list (string * entry) :=
  [("Planck13", Instance Planck13); ("Planck15", Instance Planck15);
   ("Planck18", Instance Planck18); ("WMAP1", Instance WMAP1);
   ("WMAP3", Instance WMAP3); ("WMAP5", Instance WMAP5);
   ("WMAP7", Instance WMAP7); ("WMAP9", Instance WMAP9);
   ("FlatLambdaCDM", ClassFlatLambdaCDM); ("FlatwCDM", ClassFlatwCDM)]%string.

Fixpoint getitem (d : list (string * entry)) (k : string) : option entry :=
  match d with
  | [] => None
  | (k', v) :: d' => if String.eqb k k' then Some v else getitem d' k
  end.

Definition strictly_increasing_on (f : R -> R) (lo hi : R) : Prop :=
  forall a b, lo <= a -> a < b -> b <= hi -> f a < f b.

(** Arithmetic on outcomes, as the operators of the source combine the
    values of two calls. *)
Definition mul_res : result R -> result R -> result R :=
  lift2 (fun x y => Ok (x * y)).

Definition sub_res : result R -> result R -> result R :=
  lift2 (fun x y => Ok (x - y)).


(** ** Notions of the statements *)

(** [j] is the cell of [key]: [arr[j] <= key], and [key < arr[j+1]]
    unless [j] is the last index. *)
Definition bracket (key : R) (arr : list R) (j : Z) : Prop :=
  (0 <= j < lenZ arr)%Z
  /\ nthR arr j <= key
  /\ ((j + 1)%Z = lenZ arr \/ key < nthR arr (j + 1)).

(** The point of the segment from [(dx[j], dy[j])] to
    [(dx[j+1], dy[j+1])] at abscissa [x]. *)
Definition lerp (x : R) (dx dy : list R) (j : Z) : R :=
  (nthR dy (j + 1) - nthR dy j) / (nthR dx (j + 1) - nthR dx j)
  * (x - nthR dx j) + nthR dy j.

(** What [interp] returns at [x]: [right] above the last abscissa,
    [left] below the first one, and otherwise the ordinate at a cell
    that holds [x]. *)
Definition interp_value (x : R) (xp fp : list R) (left right r : R) : Prop :=
  let last := (lenZ xp - 1)%Z in
  (nthR xp last < x /\ r = right)
  \/ (~ nthR xp last < x /\ x < nthR xp 0 /\ r = left)
  \/ (nthR xp 0 <= x <= nthR xp last
      /\ exists j, bracket x xp j
         /\ ((j = last \/ nthR xp j = x) /\ r = nthR fp j
             \/ (j < last)%Z /\ nthR xp j < x < nthR xp (j + 1)
                /\ r = lerp x xp fp j)).

(** The grid of [z_at_value] for positive bounds. *)
Definition grid (zmin zmax : R) : list R :=
  logspace (Rlog 10 zmin) (Rlog 10 zmax) 1000.



Definition nondecreasing_on (f : R -> R) (lo hi : R) : Prop :=
  forall a b, lo <= a -> a <= b -> b <= hi -> f a <= f b.




(** * Properties *)

(** ** Powers *)

Lemma Int_part_3 : Int_part 3 = 3%Z.
Proof.
  symmetry. apply (Int_part_spec 3 3). simpl. lra.
Qed.

Lemma power_3 (x : R) : power x 3 = Ok (x ^ 3).
Proof.
  unfold power.
  destruct (Rlt_dec 0 x) as [Hpos | Hnpos].
  - replace 3 with (INR 3) at 1 by (simpl; lra).
    now rewrite Rpower_pow.
  - destruct (Req_dec_T x 0) as [-> | Hnz].
    + destruct (Rlt_dec 0 3) as [_ | H]; [| exfalso; lra].
      f_equal. simpl. lra.
    + rewrite Int_part_3.
      destruct (Req_dec_T 3 (IZR 3)) as [_ | H]; [| now exfalso].
      reflexivity.
Qed.

Lemma divide_ok (x y : R) : y <> 0 -> divide x y = Ok (x / y).
Proof.
  intros Hy. unfold divide. now destruct (Req_dec_T y 0).
Qed.

Lemma divide_zero (x : R) : divide x 0 = Undefined.
Proof.
  unfold divide. destruct (Req_dec_T 0 0) as [_ | H]; [reflexivity | now exfalso].
Qed.

(** ** The formulas *)

(** The keyword [H0] is not a parameter of [inv_efunc]: whenever the
    Hubble distance is computed, the call that follows it cannot bind
    its arguments. *)
Lemma hubble_parameter_unexpected_keyword (z H0 Om0 w0 : R) :
  forall v, hubble_parameter z H0 Om0 w0 <> Ok v.
Proof.
  intros v. unfold hubble_parameter.
  destruct (hubble_distance H0); simpl; discriminate.
Qed.

(** C1, at the input [z = 1], [H0 = 70], [Om0 = 0.3], [w0 = -1]:
    [hubble_parameter] returns no product of the Hubble distance and
    the inverse of [efunc]; the call of [inv_efunc] with the keyword
    [H0] raises [TypeError]. *)
Theorem hubble_parameter_raises_TypeError :
  hubble_parameter 1 70 (3 / 10) (-1) = Raise TypeError.
Proof.
  unfold hubble_parameter, hubble_distance.
  rewrite divide_ok by lra. reflexivity.
Qed.

(** C3: the luminosity distance is [(1 + z)] times the comoving distance
    of the same arguments. *)
Theorem luminosity_distance_comoving (z H0 Om0 w0 : R) :
  luminosity_distance z H0 Om0 w0
  = mul_res (Ok (1 + z)) (comoving_distance z H0 Om0 w0).
Proof.
  unfold luminosity_distance, mul_res, lift2. simpl.
  now destruct (comoving_distance z H0 Om0 w0).
Qed.

(** C7: the comoving volume is [4/3 * pi] times the cube of the comoving
    distance of the same arguments. *)
Theorem comoving_volume_cube (z H0 Om0 w0 : R) :
  comoving_volume z H0 Om0 w0
  = (dC <- comoving_distance z H0 Om0 w0 ;; Ok (4 / 3 * PI * dC ^ 3)).
Proof.
  unfold comoving_volume.
  destruct (comoving_distance z H0 Om0 w0) as [dC | |]; simpl; trivial.
  now rewrite power_3.
Qed.

(** ** The classes *)

(** C5: [FlatLambdaCDM] builds the very object that [FlatwCDM] builds
    for [w0 = -1], so their [efunc] agree at every redshift. *)
Theorem FlatLambdaCDM_is_FlatwCDM (H0 Om0 zmin zmax : R)
    (name : option string) (meta : option metadata) :
  FlatLambdaCDM_init H0 Om0 zmin zmax name meta
  = FlatwCDM_init H0 Om0 (-1) zmin zmax name meta
  /\ forall z,
      FlatwCDM_efunc (FlatLambdaCDM_init H0 Om0 zmin zmax name meta) z
      = FlatwCDM_efunc (FlatwCDM_init H0 Om0 (-1) zmin zmax name meta) z.
Proof.
  split; [reflexivity | intros z; reflexivity].
Qed.

(** The keyword arguments of an object bind to [(z, H0, Om0, w0)]. *)
Lemma bind_args_kwargs (self : FlatwCDM) (z : R) :
  bind_args sig_z_H0_Om0_w0 [z] (_kwargs self)
  = Ok [z; H0_ self; Om0_ self; w0_ self].
Proof. reflexivity. Qed.

Lemma FlatwCDM_lookback_time_eq (self : FlatwCDM) (z : R) :
  FlatwCDM_lookback_time self z
  = lookback_time z (H0_ self) (Om0_ self) (w0_ self).
Proof. reflexivity. Qed.

Lemma FlatwCDM_luminosity_distance_eq (self : FlatwCDM) (z : R) :
  FlatwCDM_luminosity_distance self z
  = luminosity_distance z (H0_ self) (Om0_ self) (w0_ self).
Proof. reflexivity. Qed.

(** C6: the age at [z] is the lookback time to [zmax] minus the lookback
    time to [z]; an omitted [zmax] is [1e5]. *)
Theorem FlatwCDM_age_lookback (self : FlatwCDM) (z zmax : R) :
  FlatwCDM_age self z (Some zmax)
  = sub_res (FlatwCDM_lookback_time self zmax) (FlatwCDM_lookback_time self z)
  /\ FlatwCDM_age self z None = FlatwCDM_age self z (Some 100000).
Proof.
  split; reflexivity.
Qed.

(** ** The search of [interp] *)

Lemma shiftr_half (d : Z) :
  (0 < d)%Z -> (0 <= Z.shiftr d 1 < d)%Z.
Proof.
  intros Hd. rewrite Z.shiftr_div_pow2 by lia.
  change (2 ^ 1)%Z with 2%Z. split.
  - apply Z.div_pos; lia.
  - apply Z.div_lt; lia.
Qed.

Lemma bisect_bracket (key : R) (arr : list R) :
  forall (fuel : nat) (imin imax : Z),
    (0 <= imin <= imax)%Z ->
    (imax <= lenZ arr)%Z ->
    (imax - imin <= Z.of_nat fuel)%Z ->
    ((0 < imin)%Z /\ nthR arr (imin - 1) <= key
     \/ (imin < imax)%Z /\ nthR arr imin <= key) ->
    (imax = lenZ arr \/ key < nthR arr imax) ->
    bracket key arr (bisect fuel key arr imin imax).
Proof.
  induction fuel as [| fuel IH]; intros imin imax Hord Hlen Hfuel Hlow Hhigh.
  - simpl. assert (imin = imax) by lia. subst imax.
    destruct Hlow as [[Hpos Hle] | [Hlt _]]; [| lia].
    unfold bracket. replace (imin - 1 + 1)%Z with imin by lia.
    repeat split; try lia; assumption.
  - simpl. destruct (Z.ltb_spec imin imax) as [Hlt | Hge].
    + pose proof (shiftr_half (imax - imin) ltac:(lia)) as Hh.
      set (imid := (imin + Z.shiftr (imax - imin) 1)%Z) in *.
      assert (Hmid : (imin <= imid < imax)%Z) by (unfold imid; lia).
      destruct (Rle_dec (nthR arr imid) key) as [Hle | Hnle].
      * apply IH; try lia.
        -- left. split; [lia |].
           now replace (imid + 1 - 1)%Z with imid by lia.
        -- assumption.
      * assert (Hk : key < nthR arr imid) by lra.
        apply IH; try lia.
        -- destruct Hlow as [Hl | [_ Hl]]; [now left |].
           right. split; [| assumption].
           destruct (Z.eq_dec imin imid) as [Heq | Hne]; [| lia].
           rewrite <- Heq in Hk. lra.
        -- now right.
    + assert (imin = imax) by lia. subst imax.
      destruct Hlow as [[Hpos Hle] | [Hlt _]]; [| lia].
      unfold bracket. replace (imin - 1 + 1)%Z with imin by lia.
      repeat split; try lia; assumption.
Qed.

Lemma linear_search_bracket (key : R) (arr : list R) :
  forall (fuel : nat) (i : Z),
    (1 <= i <= lenZ arr)%Z ->
    (lenZ arr - i <= Z.of_nat fuel)%Z ->
    nthR arr (i - 1) <= key ->
    bracket key arr (linear_search fuel key arr (lenZ arr) i).
Proof.
  induction fuel as [| fuel IH]; intros i Hi Hfuel Hle.
  - simpl. unfold bracket. replace (i - 1 + 1)%Z with i by lia.
    repeat split; try lia; assumption.
  - simpl. destruct (Z.ltb_spec i (lenZ arr)) as [Hlt | Hge].
    + destruct (Rle_dec (nthR arr i) key) as [Hle' | Hnle].
      * apply IH; try lia. now replace (i + 1 - 1)%Z with i by lia.
      * unfold bracket. replace (i - 1 + 1)%Z with i by lia.
        repeat split; try lia; try assumption. right; lra.
    + unfold bracket. replace (i - 1 + 1)%Z with i by lia.
      repeat split; try lia; assumption.
Qed.

(** Whatever the array and the guess, the search returns [len] for a key
    above the last element, otherwise [-1] for a key below the first
    one, otherwise the index of a cell that holds the key. *)
Lemma binary_search_with_guess_spec (key : R) (arr : list R) (guess : Z) :
  (1 <= lenZ arr)%Z ->
  let j := binary_search_with_guess key arr (lenZ arr) guess in
  (nthR arr (lenZ arr - 1) < key /\ j = lenZ arr)
  \/ (~ nthR arr (lenZ arr - 1) < key /\ key < nthR arr 0 /\ j = (-1)%Z)
  \/ (nthR arr 0 <= key <= nthR arr (lenZ arr - 1) /\ bracket key arr j).
Proof.
  intros Hlen j. subst j. unfold binary_search_with_guess.
  set (len := lenZ arr) in *.
  destruct (Rlt_dec (nthR arr (len - 1)) key) as [Hhi | Hhi]; [now left |].
  destruct (Rlt_dec key (nthR arr 0)) as [Hlo | Hlo]; [right; left; auto |].
  right; right. split; [lra |].
  unfold LIKELY_IN_CACHE_SIZE.
  destruct (Z.leb_spec len 4) as [Hsmall | Hbig].
  - apply linear_search_bracket; try lia. simpl. lra.
  - set (g1 := if (len - 3 <? guess)%Z then (len - 3)%Z else guess).
    set (g := if (g1 <? 1)%Z then 1%Z else g1).
    assert (Hg : (1 <= g <= len - 3)%Z).
    { unfold g, g1.
      destruct (Z.ltb_spec (len - 3) guess);
        [destruct (Z.ltb_spec (len - 3) 1) | destruct (Z.ltb_spec guess 1)];
        lia. }
    clearbody g. clear g1.
    destruct (Rlt_dec key (nthR arr g)) as [Hg0 | Hg0].
    + destruct (Rlt_dec key (nthR arr (g - 1))) as [Hgm | Hgm].
      * destruct (Z.ltb_spec 8 g) as [H4 | H4]; simpl;
          [destruct (Rle_dec (nthR arr (g - 8)) key) as [Hc | Hc]; simpl |].
        -- apply bisect_bracket; try lia.
           ++ right. split; [| assumption].
              destruct (Z.eq_dec (g - 8) (g - 1)); lia.
           ++ now right.
        -- apply bisect_bracket; try lia.
           ++ right. split; [lia | lra].
           ++ now right.
        -- apply bisect_bracket; try lia.
           ++ right. split; [| lra].
              destruct (Z.eq_dec 0 (g - 1)) as [Heq | Hne]; [| lia].
              rewrite <- Heq in Hgm. lra.
           ++ now right.
      * unfold bracket. replace (g - 1 + 1)%Z with g by lia.
        repeat split; try lia; [lra | now right].
    + destruct (Rlt_dec key (nthR arr (g + 1))) as [Hg1 | Hg1].
      * unfold bracket. repeat split; try lia; [lra | now right].
      * destruct (Rlt_dec key (nthR arr (g + 2))) as [Hg2 | Hg2].
        -- unfold bracket. replace (g + 1 + 1)%Z with (g + 2)%Z by lia.
           repeat split; try lia; [lra | now right].
        -- destruct (Z.ltb_spec g (len - 8 - 1)) as [H4 | H4]; simpl;
             [destruct (Rlt_dec key (nthR arr (g + 8))) as [Hc | Hc]; simpl |].
           ++ apply bisect_bracket; try lia.
              ** left. split; [lia |].
                 replace (g + 2 - 1)%Z with (g + 1)%Z by lia. lra.
              ** now right.
           ++ apply bisect_bracket; try lia; try (now left).
              left. split; [lia |].
              replace (g + 2 - 1)%Z with (g + 1)%Z by lia. lra.
           ++ apply bisect_bracket; try lia; try (now left).
              left. split; [lia |].
              replace (g + 2 - 1)%Z with (g + 1)%Z by lia. lra.
Qed.

(** ** Interpolation *)

Lemma interp_unfold (x : R) (xp fp : list R) (left right : R) :
  (1 <= length xp)%nat ->
  length fp = length xp ->
  interp x xp fp left right = Ok (fst (interp_point x xp fp left right 0)).
Proof.
  intros Hne Hlen. unfold interp, interp_array.
  destruct (Nat.eqb_spec (length xp) 0) as [H0 | _]; [lia |].
  destruct (Nat.eqb_spec (length fp) (length xp)) as [_ | Hn]; [| contradiction].
  simpl. now destruct (interp_point x xp fp left right 0).
Qed.

Lemma interp_spec (x : R) (xp fp : list R) (left right : R) :
  (2 <= length xp)%nat ->
  length fp = length xp ->
  exists r, interp x xp fp left right = Ok r
            /\ interp_value x xp fp left right r.
Proof.
  intros Hne Hlen. rewrite interp_unfold by (trivial; lia).
  eexists; split; [reflexivity |].
  unfold interp_point, interp_value.
  assert (Hl : (2 <= lenZ xp)%Z) by (unfold lenZ; lia).
  destruct (Z.eqb_spec (lenZ xp) 1) as [H1 | _]; [lia |].
  cbn [fst].
  destruct (binary_search_with_guess_spec x xp 0 ltac:(lia))
    as [[Hhi Hj] | [[Hhi [Hlo Hj]] | [Hin Hbr]]].
  - left. split; [assumption |]. rewrite Hj.
    destruct (Z.eqb_spec (lenZ xp) (-1)) as [E | _]; [lia |].
    now rewrite Z.eqb_refl.
  - right; left. repeat split; try assumption. now rewrite Hj.
  - right; right. split; [assumption |].
    set (j := binary_search_with_guess x xp (lenZ xp) 0) in *.
    exists j. split; [assumption |].
    destruct Hbr as [Hj [Hle Hnext]].
    destruct (Z.eqb_spec j (-1)) as [E | _]; [lia |].
    destruct (Z.eqb_spec j (lenZ xp)) as [E | _]; [lia |].
    destruct (Z.eqb_spec j (lenZ xp - 1)) as [E | Hnl]; [left; auto |].
    destruct (Req_dec_T (nthR xp j) x) as [E | Hne']; [left; auto |].
    right. destruct Hnext as [E | Hlt]; [lia |].
    repeat split; try lia; try lra. 
Qed.

(** A point of a segment lies between the ordinates of its ends. *)
Lemma lerp_between (x : R) (dx dy : list R) (j : Z) (lo hi : R) :
  nthR dx j < x < nthR dx (j + 1) ->
  lo <= nthR dy j <= hi ->
  lo <= nthR dy (j + 1) <= hi ->
  lo <= lerp x dx dy j <= hi.
Proof.
  intros Hx Ha Hb. unfold lerp.
  set (a := nthR dy j) in *. set (b := nthR dy (j + 1)) in *.
  set (p := nthR dx j) in *. set (q := nthR dx (j + 1)) in *.
  set (t := (x - p) / (q - p)).
  assert (Ht : 0 < t < 1).
  { unfold t. split.
    - apply Rdiv_lt_0_compat; lra.
    - apply Rmult_lt_reg_r with (q - p); [lra |].
      unfold Rdiv. rewrite Rmult_assoc, Rinv_l by lra. lra. }
  replace ((b - a) / (q - p) * (x - p) + a) with ((b - a) * t + a)
    by (unfold t; field; lra).
  split; nra.
Qed.

Lemma nthR_In (l : list R) (j : Z) :
  (0 <= j < lenZ l)%Z -> In (nthR l j) l.
Proof.
  intros Hj. unfold nthR. apply nth_In. unfold lenZ in Hj. lia.
Qed.

(** [interp] never leaves the range of the ordinates and of the two
    clamp values, whether the abscissas are sorted or not. *)
Lemma interp_range (x : R) (xp fp : list R) (left right lo hi : R) :
  (2 <= length xp)%nat ->
  length fp = length xp ->
  (forall y, In y fp -> lo <= y <= hi) ->
  lo <= left <= hi ->
  lo <= right <= hi ->
  exists r, interp x xp fp left right = Ok r /\ lo <= r <= hi.
Proof.
  intros Hne Hlen Hfp Hl Hr.
  destruct (interp_spec x xp fp left right Hne Hlen) as [r [Hint Hv]].
  exists r. split; [assumption |].
  assert (Hlz : lenZ fp = lenZ xp) by (unfold lenZ; lia).
  destruct Hv as [[_ ->] | [[_ [_ ->]] | [_ [j [Hbr Hj]]]]]; trivial.
  destruct Hbr as [Hjr _].
  destruct Hj as [[_ ->] | [Hjl [Hx ->]]].
  - apply Hfp, nthR_In. lia.
  - apply lerp_between; trivial; apply Hfp, nthR_In; lia.
Qed.

(** ** The grid *)

Lemma linspace_length (a b : R) (n : nat) : length (linspace a b n) = n.
Proof.
  destruct n as [| [| d]]; trivial.
  unfold linspace. rewrite length_app, length_map, length_seq. simpl. lia.
Qed.

(** Every entry of [linspace], the overwritten last one too, is
    [i * step + start]. *)
Lemma linspace_nth (a b : R) (d i : nat) :
  (i <= S d)%nat ->
  nth i (linspace a b (S (S d))) 0 = INR i * ((b - a) / INR (S d)) + a.
Proof.
  intros Hi. unfold linspace.
  assert (Hd : INR (S d) <> 0) by (apply not_0_INR; lia).
  destruct (Nat.eq_dec i (S d)) as [-> | Hne].
  - rewrite app_nth2; rewrite length_map, length_seq; [| lia].
    rewrite Nat.sub_diag. simpl nth. field. exact Hd.
  - rewrite app_nth1 by (rewrite length_map, length_seq; lia).
    rewrite nth_indep with (d' := INR 0 * ((b - a) / INR (S d)) + a)
      by (rewrite length_map, length_seq; lia).
    rewrite (map_nth (fun i => INR i * ((b - a) / INR (S d)) + a)).
    rewrite seq_nth by lia. reflexivity.
Qed.

Lemma logspace_length (a b : R) (n : nat) : length (logspace a b n) = n.
Proof.
  unfold logspace. now rewrite length_map, linspace_length.
Qed.

Lemma logspace_nth (a b : R) (d i : nat) :
  (i <= S d)%nat ->
  nth i (logspace a b (S (S d))) 0
  = Rpower 10 (INR i * ((b - a) / INR (S d)) + a).
Proof.
  intros Hi. unfold logspace.
  rewrite nth_indep with (d' := Rpower 10 0)
    by (rewrite length_map, linspace_length; lia).
  rewrite (map_nth (fun y => Rpower 10 y)).
  now rewrite linspace_nth.
Qed.

Lemma logspace_first (a b : R) (d : nat) :
  nth 0 (logspace a b (S (S d))) 0 = Rpower 10 a.
Proof.
  rewrite logspace_nth by lia. f_equal. simpl. lra.
Qed.

Lemma logspace_last (a b : R) (d : nat) :
  nth (S d) (logspace a b (S (S d))) 0 = Rpower 10 b.
Proof.
  rewrite logspace_nth by lia. f_equal. field. apply not_0_INR. lia.
Qed.

(** For [a < b] the grid increases strictly. *)
Lemma logspace_increasing (a b : R) (d i j : nat) :
  a < b -> (i < j <= S d)%nat ->
  nth i (logspace a b (S (S d))) 0 < nth j (logspace a b (S (S d))) 0.
Proof.
  intros Hab Hij. rewrite !logspace_nth by lia.
  apply Rpower_lt; [lra |].
  assert (Hstep : 0 < (b - a) / INR (S d)).
  { apply Rdiv_lt_0_compat; [lra | apply lt_0_INR; lia]. }
  assert (Hlt : INR i < INR j) by (apply lt_INR; lia).
  nra.
Qed.

Lemma logspace_range (a b : R) (d : nat) (z : R) :
  a < b -> In z (logspace a b (S (S d))) ->
  Rpower 10 a <= z <= Rpower 10 b.
Proof.
  intros Hab Hin.
  destruct (In_nth _ _ 0 Hin) as [i [Hi Hz]].
  rewrite logspace_length in Hi. subst z.
  rewrite <- (logspace_first a b d), <- (logspace_last a b d).
  split.
  - destruct i as [| i]; [lra |].
    left. apply logspace_increasing; [assumption | lia].
  - destruct (Nat.eq_dec i (S d)) as [-> | Hne]; [lra |].
    left. apply logspace_increasing; [assumption | lia].
Qed.

Lemma Rpower_10_Rlog (x : R) : 0 < x -> Rpower 10 (Rlog 10 x) = x.
Proof.
  intros Hx. apply Rpower_Rlog; lra.
Qed.

Lemma ln_10_pos : 0 < ln 10.
Proof.
  rewrite <- ln_1. apply ln_increasing; lra.
Qed.

Lemma Rlog_10_increasing (x y : R) :
  0 < x -> x < y -> Rlog 10 x < Rlog 10 y.
Proof.
  intros Hx Hxy. unfold Rlog, Rdiv.
  apply Rmult_lt_compat_r.
  - apply Rinv_0_lt_compat, ln_10_pos.
  - now apply ln_increasing.
Qed.

(** ** Redshift inversion *)

Lemma grid_length (zmin zmax : R) : length (grid zmin zmax) = 1000%nat.
Proof. apply logspace_length. Qed.



Lemma grid_increasing (zmin zmax : R) (i j : nat) :
  0 < zmin -> zmin < zmax -> (i < j < 1000)%nat ->
  nth i (grid zmin zmax) 0 < nth j (grid zmin zmax) 0.
Proof.
  intros Hz Hlt Hij. unfold grid. change 1000%nat with (S (S 998)).
  apply logspace_increasing; [| lia].
  now apply Rlog_10_increasing.
Qed.

Lemma grid_range (zmin zmax z : R) :
  0 < zmin -> zmin < zmax -> In z (grid zmin zmax) -> zmin <= z <= zmax.
Proof.
  intros Hz Hlt Hin. unfold grid in Hin. change 1000%nat with (S (S 998)) in Hin.
  apply logspace_range in Hin; [| now apply Rlog_10_increasing].
  rewrite !Rpower_10_Rlog in Hin by lra. exact Hin.
Qed.

Lemma z_at_value_grid (func : list R -> kwargs -> result (list R))
    (fval zmin zmax : R) (kw : kwargs) :
  0 < zmin -> 0 < zmax ->
  z_at_value func fval zmin zmax kw
  = (fs <- func (grid zmin zmax) kw ;;
     interp fval fs (grid zmin zmax) zmin zmax).
Proof.
  intros Hmin Hmax. unfold z_at_value, log10.
  destruct (Rlt_dec 0 zmin) as [_ | H]; [| contradiction].
  destruct (Rlt_dec 0 zmax) as [_ | H]; [| contradiction].
  reflexivity.
Qed.


(** ** Frame conversion *)

Lemma luminosity_distance_array_eq (zs : list R) (H0 Om0 w0 : R) :
  luminosity_distance_array zs [("H0", H0); ("Om0", Om0); ("w0", w0)]%string
  = mapM (fun z => luminosity_distance z H0 Om0 w0) zs.
Proof. reflexivity. Qed.

(** C4: the redshift is the one [z_at_value] finds for
    [luminosity_distance] with the cosmology [H0], [Om0], [w0], the
    target [dL] and the bounds [zmin], [zmax]; the result is the two
    masses divided by [1 + z], and [z]. *)
Theorem detector_to_source_frame_spec (m1z m2z dL H0 Om0 w0 zmin zmax : R) :
  detector_to_source_frame m1z m2z dL H0 Om0 w0 zmin zmax
  = match z_at_value
            (fun zs _ => mapM (fun z => luminosity_distance z H0 Om0 w0) zs)
            dL zmin zmax [] with
    | Ok z =>
        if Req_dec_T (1 + z) 0 then Undefined
        else Ok (m1z / (1 + z), m2z / (1 + z), z)
    | Undefined => Undefined
    | Raise e => Raise e
    end.
Proof.
  unfold detector_to_source_frame, z_at_value.
  destruct (log10 zmin) as [a | |]; cbn [bind]; trivial.
  destruct (log10 zmax) as [b | |]; cbn [bind]; trivial.
  rewrite luminosity_distance_array_eq.
  destruct (mapM _ _) as [fs | |]; cbn [bind]; trivial.
  destruct (interp dL fs (logspace a b 1000) zmin zmax) as [z | |];
    cbn [bind]; trivial.
  unfold divide. now destruct (Req_dec_T (1 + z) 0).
Qed.

Lemma mapM_total {A B : Type} (g : A -> result B) (l : list A) :
  (forall a, In a l -> exists b, g a = Ok b) ->
  exists bs, mapM g l = Ok bs /\ length bs = length l.
Proof.
  induction l as [| a l IH]; intros Hall.
  - now exists [].
  - destruct (Hall a (or_introl eq_refl)) as [b Hb].
    destruct IH as [bs [Hbs Hlen]].
    { intros a' Ha'. apply Hall. now right. }
    exists (b :: bs). simpl. rewrite Hb. simpl. rewrite Hbs. simpl.
    split; [reflexivity | now rewrite Hlen].
Qed.

(** When the luminosity distance has a value at every point of the
    grid, a redshift of [[zmin, zmax]] is found and both masses are
    divided by [1 + z]. *)
Lemma detector_to_source_frame_returns (m1z m2z dL H0 Om0 w0 zmin zmax : R) :
  0 < zmin -> zmin < zmax ->
  (forall z, In z (grid zmin zmax) ->
             exists d, luminosity_distance z H0 Om0 w0 = Ok d) ->
  exists z, zmin <= z <= zmax
            /\ detector_to_source_frame m1z m2z dL H0 Om0 w0 zmin zmax
               = Ok (m1z / (1 + z), m2z / (1 + z), z).
Proof.
  intros Hmin Hlt Hdef.
  unfold detector_to_source_frame.
  rewrite z_at_value_grid by lra.
  rewrite luminosity_distance_array_eq.
  destruct (mapM_total _ _ Hdef) as [vs [Hvs Hlen]].
  rewrite Hvs. cbn [bind].
  destruct (interp_range dL vs (grid zmin zmax) zmin zmax zmin zmax)
    as [z [Hz Hr]].
  - rewrite Hlen, grid_length. lia.
  - now rewrite Hlen.
  - intros y Hy. now apply grid_range.
  - lra.
  - lra.
  - exists z. split; [exact Hr |]. rewrite Hz. cbn [bind].
    rewrite !divide_ok by lra. reflexivity.
Qed.

(** ** The contract of [z_at_value] *)



Lemma grid_lenZ (zmin zmax : R) : lenZ (grid zmin zmax) = 1000%Z.
Proof. unfold lenZ. now rewrite grid_length. Qed.

Lemma nthR_map (f : R -> R) (l : list R) (j : Z) :
  (0 <= j < lenZ l)%Z -> nthR (map f l) j = f (nthR l j).
Proof.
  intros Hj. unfold nthR, lenZ in *.
  rewrite nth_indep with (d' := f 0) by (rewrite length_map; lia).
  apply map_nth.
Qed.

Lemma grid_nthR_range (zmin zmax : R) (j : Z) :
  0 < zmin -> zmin < zmax -> (0 <= j < 1000)%Z ->
  zmin <= nthR (grid zmin zmax) j <= zmax.
Proof.
  intros Hmin Hlt Hj. apply grid_range; trivial.
  apply nthR_In. now rewrite grid_lenZ.
Qed.

Lemma grid_nthR_increasing (zmin zmax : R) (i j : Z) :
  0 < zmin -> zmin < zmax -> (0 <= i < j)%Z -> (j < 1000)%Z ->
  nthR (grid zmin zmax) i < nthR (grid zmin zmax) j.
Proof.
  intros Hmin Hlt Hi Hj. unfold nthR. apply grid_increasing; trivial. lia.
Qed.





Section Nondecreasing.

Variable f : R -> R.
Variables zmin zmax : R.
Hypothesis Hmin : 0 < zmin.
Hypothesis Hlt : zmin < zmax.
Hypothesis Hf : nondecreasing_on f zmin zmax.

Local Notation "'zs'" := (grid zmin zmax).
Local Notation "'fs'" := (map f (grid zmin zmax)).

Lemma values_lenZ : lenZ fs = 1000%Z.
Proof.
  unfold lenZ. rewrite length_map. apply grid_lenZ.
Qed.

Lemma values_nthR (j : Z) :
  (0 <= j < 1000)%Z -> nthR fs j = f (nthR zs j).
Proof.
  intros Hj. apply nthR_map. now rewrite grid_lenZ.
Qed.

Lemma values_sorted (i j : Z) :
  (0 <= i <= j)%Z -> (j < 1000)%Z -> nthR fs i <= nthR fs j.
Proof.
  intros Hi Hj. rewrite !values_nthR by lia.
  pose proof (grid_nthR_range zmin zmax i Hmin Hlt ltac:(lia)) as Ri.
  pose proof (grid_nthR_range zmin zmax j Hmin Hlt ltac:(lia)) as Rj.
  apply Hf; try apply Ri; try apply Rj.
  destruct (Z.eq_dec i j) as [-> | Hne]; [lra |].
  left. apply grid_nthR_increasing; trivial; lia.
Qed.







End Nondecreasing.

(** ** A decreasing function *)

Section Decreasing.

Variables zmin zmax : R.
Hypothesis Hmin : 0 < zmin.
Hypothesis Hlt : zmin < zmax.

Local Notation "'zs'" := (grid zmin zmax).
Local Notation "'fs'" := (map Ropp (grid zmin zmax)).





End Decreasing.

(** * Further properties *)

(** ** More on powers *)

Lemma power_pos (x y : R) : 0 < x -> power x y = Ok (Rpower x y).
Proof.
  intros Hx. unfold power. now destruct (Rlt_dec 0 x).
Qed.

Lemma power_half (x : R) : 0 <= x -> power x (1 / 2) = Ok (sqrt x).
Proof.
  intros [Hx | <-].
  - rewrite power_pos by assumption.
    replace (1 / 2) with (/ 2) by lra. now rewrite Rpower_sqrt.
  - unfold power.
    destruct (Rlt_dec 0 0) as [H | _]; [exfalso; lra |].
    destruct (Req_dec_T 0 0) as [_ | H]; [| now exfalso].
    destruct (Rlt_dec 0 (1 / 2)) as [_ | H]; [| exfalso; lra].
    now rewrite sqrt_0.
Qed.

(** ** The E(z) kernel *)

(** At [z = -1] and for [w0 > -1] both terms vanish: [efunc] is zero
    and [inv_efunc] divides by it. *)
Theorem inv_efunc_at_minus_one (Om0 w0 : R) :
  -1 < w0 ->
  efunc (-1) Om0 w0 = Ok 0 /\ inv_efunc (-1) Om0 w0 = Undefined.
Proof.
  intros Hw.
  assert (He : efunc (-1) Om0 w0 = Ok 0).
  { unfold efunc. replace (1 + -1) with 0 by lra.
    rewrite power_3. cbn [bind].
    assert (Hp : power 0 (3 * (1 + w0)) = Ok 0).
    { unfold power.
      destruct (Rlt_dec 0 0) as [H | _]; [exfalso; lra |].
      destruct (Req_dec_T 0 0) as [_ | H]; [| now exfalso].
      destruct (Rlt_dec 0 (3 * (1 + w0))) as [_ | H]; [reflexivity |].
      exfalso; lra. }
    rewrite Hp. cbn [bind].
    replace (Om0 * 0 ^ 3 + (1 - Om0) * 0) with 0 by (simpl; lra).
    rewrite power_half by lra. now rewrite sqrt_0. }
  split; [exact He |].
  unfold inv_efunc. rewrite He. cbn [bind]. apply divide_zero.
Qed.

(** ** Interpolation over sorted abscissas *)


Section SortedInterp.

Variables xp fp : list R.
Variables left right : R.
Hypothesis Hsorted :
  forall i j, (0 <= i <= j)%Z -> (j < lenZ xp)%Z -> nthR xp i <= nthR xp j.

(** In a sorted array a key has one cell. *)
Lemma bracket_unique (x : R) (j1 j2 : Z) :
  bracket x xp j1 -> bracket x xp j2 -> j1 = j2.
Proof.
  intros [Hj1 [Hle1 Hn1]] [Hj2 [Hle2 Hn2]].
  destruct (Z.lt_trichotomy j1 j2) as [Hlt | [Heq | Hgt]]; [| exact Heq |];
    exfalso.
  - destruct Hn1 as [E | Hn1]; [lia |].
    pose proof (Hsorted (j1 + 1) j2 ltac:(lia) ltac:(lia)). lra.
  - destruct Hn2 as [E | Hn2]; [lia |].
    pose proof (Hsorted (j2 + 1) j1 ltac:(lia) ltac:(lia)). lra.
Qed.

Lemma interp_value_unique (x r1 r2 : R) :
  interp_value x xp fp left right r1 ->
  interp_value x xp fp left right r2 ->
  r1 = r2.
Proof.
  unfold interp_value. intros H1 H2.
  destruct H1 as [[Hhi1 ->] | [[Hn1 [Hlo1 ->]] | [Hin1 [j1 [Hb1 Hr1]]]]];
    destruct H2 as [[Hhi2 ->] | [[Hn2 [Hlo2 ->]] | [Hin2 [j2 [Hb2 Hr2]]]]];
    try reflexivity; try (exfalso; lra).
  assert (j1 = j2) by (eapply bracket_unique; eassumption). subst j2.
  destruct Hr1 as [[Hc1 ->] | [Hl1 [Hx1 ->]]];
    destruct Hr2 as [[Hc2 ->] | [Hl2 [Hx2 ->]]]; try reflexivity; exfalso.
  - destruct Hc1 as [E | E]; [lia | lra].
  - destruct Hc2 as [E | E]; [lia | lra].
Qed.



End SortedInterp.

(** ** More on redshift inversion *)

Lemma z_at_value_interp_value (f : R -> R) (fval zmin zmax : R) (kw : kwargs) :
  0 < zmin -> zmin < zmax ->
  exists r, z_at_value (elementwise f) fval zmin zmax kw = Ok r
            /\ interp_value fval (map f (grid zmin zmax)) (grid zmin zmax)
                 zmin zmax r.
Proof.
  intros Hmin Hlt. rewrite z_at_value_grid by lra.
  unfold elementwise. cbn [bind]. apply interp_spec.
  - rewrite length_map, grid_length. lia.
  - now rewrite length_map.
Qed.


Lemma strictly_increasing_nondecreasing (f : R -> R) (lo hi : R) :
  strictly_increasing_on f lo hi -> nondecreasing_on f lo hi.
Proof.
  intros Hf a b Ha [Hab | ->] Hb; [| lra].
  left. now apply Hf.
Qed.

Lemma values_increasing (f : R -> R) (zmin zmax : R) (i j : Z) :
  0 < zmin -> zmin < zmax -> strictly_increasing_on f zmin zmax ->
  (0 <= i < j)%Z -> (j < 1000)%Z ->
  nthR (map f (grid zmin zmax)) i < nthR (map f (grid zmin zmax)) j.
Proof.
  intros Hmin Hlt Hf Hi Hj. rewrite !values_nthR by lia.
  pose proof (grid_nthR_range zmin zmax i Hmin Hlt ltac:(lia)) as Ri.
  pose proof (grid_nthR_range zmin zmax j Hmin Hlt ltac:(lia)) as Rj.
  apply Hf; try apply Ri; try apply Rj.
  apply grid_nthR_increasing; trivial.
Qed.

Lemma z_at_value_at_grid_point (f : R -> R) (zmin zmax : R) (kw : kwargs)
    (j : nat) :
  0 < zmin -> zmin < zmax -> strictly_increasing_on f zmin zmax ->
  (j < 1000)%nat ->
  z_at_value (elementwise f) (f (nth j (grid zmin zmax) 0)) zmin zmax kw
  = Ok (nth j (grid zmin zmax) 0).
Proof.
  intros Hmin Hlt Hf Hj.
  pose proof (strictly_increasing_nondecreasing _ _ _ Hf) as Hnd.
  set (x := f (nth j (grid zmin zmax) 0)).
  destruct (z_at_value_interp_value f x zmin zmax kw Hmin Hlt) as [r [Hz Hv]].
  rewrite Hz. f_equal.
  assert (HJ : nthR (grid zmin zmax) (Z.of_nat j) = nth j (grid zmin zmax) 0)
    by (unfold nthR; now rewrite Nat2Z.id).
  assert (Hx : nthR (map f (grid zmin zmax)) (Z.of_nat j) = x)
    by (rewrite values_nthR by lia; now rewrite HJ).
  apply (interp_value_unique (map f (grid zmin zmax)) (grid zmin zmax)
           zmin zmax) with x; trivial.
  - intros a b Ha Hb. rewrite values_lenZ in Hb.
    now apply values_sorted.
  - unfold interp_value. rewrite values_lenZ.
    replace (1000 - 1)%Z with 999%Z by lia.
    right; right. split.
    + rewrite <- Hx. split; apply values_sorted; trivial; lia.
    + exists (Z.of_nat j). split.
      * unfold bracket. rewrite values_lenZ.
        repeat split; try lia; [lra |].
        destruct (Z.eq_dec (Z.of_nat j + 1) 1000) as [E | Hne];
          [now left | right].
        rewrite <- Hx. apply values_increasing; trivial; lia.
      * left. split; [now right | now symmetry].
Qed.





(** ** Arrays of targets *)



Lemma mapM_Ok_map {A B : Type} (g : A -> result B) (h : A -> B) (l : list A) :
  (forall a, In a l -> g a = Ok (h a)) -> mapM g l = Ok (map h l).
Proof.
  induction l as [| a l IH]; intros Hall; [reflexivity |].
  simpl. rewrite (Hall a) by now left. cbn [bind].
  rewrite IH by (intros a' Ha'; apply Hall; now right).
  reflexivity.
Qed.



(** ** Calls that bind *)

Lemma luminosity_distance_call_w0 (z H0 Om0 w0 : R) :
  luminosity_distance_call [z; H0; Om0] [("w0", w0)]%string
  = luminosity_distance z H0 Om0 w0.
Proof. reflexivity. Qed.

Lemma FlatwCDM_H_eq (self : FlatwCDM) (z : R) :
  FlatwCDM_H self z = hubble_parameter z (H0_ self) (Om0_ self) (w0_ self).
Proof. reflexivity. Qed.

(** ** Distances *)

(** The [H] method returns for no object and no redshift: it ends in
    the call of [inv_efunc] with the keyword [H0]. *)
Theorem FlatwCDM_H_never_returns (self : FlatwCDM) (z : R) :
  forall v, FlatwCDM_H self z <> Ok v.
Proof.
  intros v. rewrite FlatwCDM_H_eq. apply hubble_parameter_unexpected_keyword.
Qed.

(** The age at [zmax] itself is zero whenever the lookback time to
    [zmax] is defined. *)
Theorem FlatwCDM_age_at_zmax (self : FlatwCDM) (zmax a : R) :
  FlatwCDM_lookback_time self zmax = Ok a ->
  FlatwCDM_age self zmax (Some zmax) = Ok 0.
Proof.
  intros Ha. unfold FlatwCDM_age. rewrite Ha. cbn [bind].
  f_equal. lra.
Qed.

(** ** Frame conversion, both ways *)

Lemma z_at_value_luminosity (L : R -> R) (dL H0 Om0 w0 zmin zmax : R) :
  0 < zmin -> zmin < zmax ->
  (forall z, zmin <= z <= zmax -> luminosity_distance z H0 Om0 w0 = Ok (L z)) ->
  z_at_value luminosity_distance_array dL zmin zmax
    [("H0", H0); ("Om0", Om0); ("w0", w0)]%string
  = z_at_value (elementwise L) dL zmin zmax [].
Proof.
  intros Hmin Hlt HL. rewrite !z_at_value_grid by lra.
  rewrite luminosity_distance_array_eq.
  rewrite (mapM_Ok_map _ L); [reflexivity |].
  intros z Hz. apply HL. now apply grid_range.
Qed.

(** ** The table of named cosmologies *)

(** Every object of [available] is stored under its own name, has
    [w0 = -1], the default bounds and empty metadata. *)
Theorem available_presets (k : string) (c : FlatwCDM) :
  getitem available k = Some (Instance c) ->
  name_ c = Some k /\ w0_ c = -1
  /\ zmin_ c = zmin_default /\ zmax_ c = zmax_default /\ meta_ c = [].
Proof.
  unfold available. cbn [getitem].
  repeat match goal with
         | |- context [String.eqb k ?s] =>
             destruct (String.eqb_spec k s) as [-> | _];
             [cbv iota; intros E;
              first [discriminate E
                    | injection E as <-; repeat split; reflexivity] |]
         end.
  intros E. discriminate E.
Qed.

(** ** What rounding leaves untouched *)



(** Where the luminosity distance increases strictly over
    [[zmin, zmax]], converting source masses at a grid redshift [z] to
    the detector frame and back returns [z] itself, and each mass
    multiplied and then divided by [1 + z]. *)
Theorem frame_round_trip_redshift (L : R -> R)
    (m1 m2 H0 Om0 w0 zmin zmax : R) (j : nat) :
  0 < zmin -> zmin < zmax ->
  (forall z, zmin <= z <= zmax -> luminosity_distance z H0 Om0 w0 = Ok (L z)) ->
  strictly_increasing_on L zmin zmax ->
  (j < 1000)%nat ->
  let z := nth j (grid zmin zmax) 0 in
  (d <- source_to_detector_frame m1 m2 z H0 Om0 w0 ;;
   let '(m1z, m2z, dL) := d in
   detector_to_source_frame m1z m2z dL H0 Om0 w0 zmin zmax)
  = Ok (m1 * (1 + z) / (1 + z), m2 * (1 + z) / (1 + z), z).
Proof.
  intros Hmin Hlt HL Hinc Hj z.
  assert (Hz : zmin <= z <= zmax).
  { apply grid_range; trivial. apply nth_In. rewrite grid_length. exact Hj. }
  unfold source_to_detector_frame.
  rewrite luminosity_distance_call_w0, (HL z Hz). cbn [bind].
  unfold detector_to_source_frame.
  rewrite (z_at_value_luminosity L) by assumption.
  unfold z. rewrite z_at_value_at_grid_point by assumption. fold z.
  cbn [bind]. rewrite !divide_ok by lra. reflexivity.
Qed.

End Cosmology.

(** * Concrete instances *)




(** ** Instances of the further properties *)

Lemma inv_efunc_at_minus_one_witness :
  efunc (-1) (3 / 10) 0 = Ok 0 /\ inv_efunc (-1) (3 / 10) 0 = Undefined.
Proof.
  apply (inv_efunc_at_minus_one (3 / 10) 0). lra.
Defined.




Lemma FlatwCDM_age_at_zmax_witness :
  FlatwCDM_age (fun z _ _ _ => Ok z) 1 Planck15 5 (Some 5) = Ok 0.
Proof.
  apply (FlatwCDM_age_at_zmax (fun z _ _ _ => Ok z) 1 Planck15 5
           (5 * (1 / (6774 / 100)))).
  rewrite FlatwCDM_lookback_time_eq.
  unfold lookback_time, hubble_time. cbn [bind].
  rewrite divide_ok by (simpl; lra). reflexivity.
Defined.

Lemma available_presets_witness :
  name_ Planck15 = Some "Planck15"%string /\ w0_ Planck15 = -1
  /\ zmin_ Planck15 = zmin_default /\ zmax_ Planck15 = zmax_default
  /\ meta_ Planck15 = [].
Proof.
  apply (available_presets "Planck15" Planck15). reflexivity.
Defined.


Lemma frame_round_trip_redshift_witness :
  let z := nth 0 (grid 1 10) 0 in
  (d <- source_to_detector_frame (fun z _ _ _ => Ok z) 1 30 20 z 1 (3 / 10) (-1) ;;
   let '(m1z, m2z, dL) := d in
   detector_to_source_frame (fun z _ _ _ => Ok z) 1 m1z m2z dL 1 (3 / 10) (-1)
     1 10)
  = Ok (30 * (1 + z) / (1 + z), 20 * (1 + z) / (1 + z), z).
Proof.
  apply (frame_round_trip_redshift (fun z _ _ _ => Ok z) 1
           (fun z => (1 + z) * (z * (1 / 1))) 30 20 1 (3 / 10) (-1) 1 10 0).
  - lra.
  - lra.
  - intros z _. unfold luminosity_distance, comoving_distance, hubble_distance.
    cbn [bind]. rewrite divide_ok by lra. reflexivity.
  - intros a b Ha Hab Hb. nra.
  - lia.
Defined.

(** * Properties on doubles *)

Module DoubleProperties.
Import PrimFloat.
#[local] Set Warnings "-inexact-float".
Local Open Scope float_scope.

(** [1.0 ** y] is [1.0] for every double [y], also [nan] and the
    infinities; the C library is not asked. *)
Lemma float_pow_base_one (pw : float -> float -> float) (y : float) :
  Double.float_pow pw 1 y = Ok 1.
Proof.
  unfold Double.float_pow.
  destruct (y =? 0); [reflexivity |].
  destruct (is_nan y); [reflexivity |].
  destruct (is_infinity y); reflexivity.
Qed.

Lemma Ok_0_neq_Ok_1 : @Ok float 0 <> Ok 1.
Proof.
  intros H.
  apply (f_equal (fun r => match r with Ok x => x =? 1 | _ => false end)) in H.
  vm_compute in H. discriminate.
Qed.

(** With [Om0 = 1e16] the sum [Om0 + (1 - Om0)] is [0.0], and so is
    [efunc] at redshift zero. *)
Lemma efunc_at_zero_1e16 (pw : float -> float -> float) :
  Double.efunc pw 0 1e16 (-1) = Ok 0.
Proof. reflexivity. Qed.

(** C8 fails on doubles: [efunc(0, 1e16, -1)] is [0.0], not [1.0]. *)
Lemma efunc_at_zero_not_always_one :
  (forall pw, Double.efunc pw 0 1e16 (-1) = Ok 0)
  /\ ~ (forall pw Om0 w0, Double.efunc pw 0 Om0 w0 = Ok 1).
Proof.
  split; [exact efunc_at_zero_1e16 |].
  intros H. apply Ok_0_neq_Ok_1.
  rewrite <- (efunc_at_zero_1e16 (fun x _ => x)). apply H.
Qed.

(** C8, on doubles: at redshift zero [efunc] is one for every [w0] and
    every [Om0] whose sum [Om0 * 1 + (1 - Om0) * 1] is one. *)
Theorem efunc_at_zero (pw : float -> float -> float) (Om0 w0 : float) :
  Om0 * 1 + (1 - Om0) * 1 = 1 ->
  Double.efunc pw 0 Om0 w0 = Ok 1.
Proof.
  intros H. unfold Double.efunc.
  change (1 + 0) with 1.
  rewrite !float_pow_base_one. cbn [bind]. rewrite H.
  apply float_pow_base_one.
Qed.

Lemma efunc_at_zero_witness :
  Double.efunc (fun x _ => x) 0 0.3 (-0.5) = Ok 1.
Proof.
  apply (efunc_at_zero (fun x _ => x) 0.3 (-0.5)). reflexivity.
Defined.



End DoubleProperties.
